(** * bond::ext::gRPC::detail::service_unary_call_data

    A shallow embedding of [cpp/inc/bond/ext/grpc/detail/service_call_data.h]:
    the per-method object that receives incoming calls, hands each one to
    the thread pool and re-enqueues itself for the next one.

    The member functions are written in a state-and-error monad.  The
    state is the object's fields together with the part of the outside
    world the object acts on (the heap of [unary_call_impl] objects and
    the calls it makes on its collaborators, in order).  The error is a
    failed [BOOST_ASSERT] or the dereference of a null smart pointer. *)

From Stdlib Require Import ZArith List Bool Arith Lia.
From ExtLib Require Import Structures.Monad Structures.MonadState Structures.MonadExc.
From ExtLib Require Import Data.Monads.StateMonad Data.Monads.EitherMonad.
Import ListNotations.
Import MonadNotation.
Local Open Scope monad_scope.

#[local] Existing Instance Monad_stateT.

(** ** Data *)

(** Identities of the objects the class refers to.  A nullable C++
    pointer (raw, [shared_ptr], [unique_ptr], [intrusive_ptr]) or an
    emptiable [std::function] is an [option] of such an identity. *)
Definition service_ref := nat.   (* service<TThreadPool>&            *)
Definition cq_ref := nat.        (* grpc::ServerCompletionQueue     *)
Definition pool_ref := nat.      (* TThreadPool                     *)
Definition callback := nat.      (* the target held by std::function *)
Definition io_manager_tag := nat. (* the object itself, [this]       *)

(** A [unary_call_impl] object is identified by the rank of the
    [new uc_impl] expression that created it: every evaluation of [new]
    creates another object. *)
Definition uc_impl := nat.

(** The three members of a [unary_call_impl] whose addresses are given
    to the service. *)
Inductive uc_member : Type := context | request | responder.

Definition member_ptr : Type := (uc_impl * uc_member)%type.

(** [unary_call<TRequest, TResponse>], built from an
    [intrusive_ptr<uc_impl>]. *)
Record unary_call : Type := mk_unary_call
  { impl : option uc_impl }.

(** The closure [[this, receivedCall]() mutable { ... }] given to
    [schedule]. *)
Record task : Type := mk_task
  { captured_this : io_manager_tag;
    captured_receivedCall : option uc_impl }.

(** What the object does to the outside, in the order it does it. *)
Inductive event : Type :=
| EvNew (p : uc_impl)
| EvDelete (p : uc_impl)
| EvSchedule (pool : pool_ref) (t : task)
| EvQueueReceive (svc : service_ref) (methodIndex : Z)
    (ctx req resp : member_ptr) (cq : option cq_ref) (tag : io_manager_tag)
| EvCallback (cb : callback) (call : unary_call).

(** The fields of the class, in declaration order. *)
Record service_unary_call_data : Type := mk_data
  { _service : service_ref;
    _methodIndex : Z;
    _cq : option cq_ref;
    _threadPool : option pool_ref;
    _cb : option callback;
    _receivedCall : option uc_impl }.

Record world : Type := mk_world
  { allocated : nat;        (* number of uc_impl objects created so far *)
    trace : list event }.   (* oldest first *)

Record machine : Type := mk_machine
  { self : service_unary_call_data;
    env : world }.

(** The four assertions of the file, named after the asserted
    expression. *)
Inductive assertion : Type :=
| assert_cq
| assert_threadPool
| assert_cb
| assert_not_receivedCall.

Inductive fault : Type :=
| AssertionFailed (a : assertion)
| NullDereference
| BadFunctionCall.

Definition M : Type -> Type := stateT machine (sum fault).

(** ** Primitive operations *)

Definition is_some {A : Type} (o : option A) : bool :=
  match o with Some _ => true | None => false end.

(** [BOOST_ASSERT(expr)] with assertions enabled: a failed assertion
    ends the program. *)
Definition BOOST_ASSERT (a : assertion) (expr : bool) : M unit :=
  if expr then ret tt else raise (AssertionFailed a).

Definition emit (e : event) : M unit :=
  m <- get ;;
  put {| self := self m;
         env := {| allocated := allocated (env m);
                   trace := trace (env m) ++ [e] |} |}.

(** The object with its [_receivedCall] member replaced. *)
Definition with_receivedCall (d : service_unary_call_data)
    (p : option uc_impl) : service_unary_call_data :=
  {| _service := _service d;
     _methodIndex := _methodIndex d;
     _cq := _cq d;
     _threadPool := _threadPool d;
     _cb := _cb d;
     _receivedCall := p |}.

Definition set_receivedCall (p : option uc_impl) : M unit :=
  m <- get ;;
  put {| self := with_receivedCall (self m) p; env := env m |}.

(** [new uc_impl] *)
Definition new_uc_impl : M uc_impl :=
  m <- get ;;
  let p := allocated (env m) in
  put {| self := self m;
         env := {| allocated := S p; trace := trace (env m) |} |} ;;
  emit (EvNew p) ;;
  ret p.

(** [_receivedCall.release()]: gives up the pointer and returns it. *)
Definition release : M (option uc_impl) :=
  p <- gets (fun m => _receivedCall (self m)) ;;
  set_receivedCall None ;;
  ret p.

(** [_receivedCall.reset(p)]: stores [p], then deletes what was held. *)
Definition reset (p : option uc_impl) : M unit :=
  old <- gets (fun m => _receivedCall (self m)) ;;
  set_receivedCall p ;;
  match old with
  | Some q => emit (EvDelete q)
  | None => ret tt
  end.

(** [_threadPool->schedule(t)] *)
Definition schedule (t : task) : M unit :=
  tp <- gets (fun m => _threadPool (self m)) ;;
  match tp with
  | Some pool => emit (EvSchedule pool t)
  | None => raise NullDereference
  end.

(** ** The member functions *)

Definition queue_receive (this : io_manager_tag) : M unit :=
  rc <- gets (fun m => _receivedCall (self m)) ;;
  BOOST_ASSERT assert_not_receivedCall (negb (is_some rc)) ;;
  p <- new_uc_impl ;;
  reset (Some p) ;;
  d <- gets self ;;
  match _receivedCall d with
  | Some r =>
      emit (EvQueueReceive (_service d) (_methodIndex d)
              (r, context) (r, request) (r, responder) (_cq d) this)
  | None => raise NullDereference
  end.

Definition invoke (this : io_manager_tag) (ok : bool) : M unit :=
  if ok then
    receivedCall <- release ;;
    schedule {| captured_this := this;
                captured_receivedCall := receivedCall |} ;;
    queue_receive this
  else
    ret tt.

(** The constructor: the member initialisers, then the body. *)
Definition construct (this : io_manager_tag) (service : service_ref)
    (methodIndex : Z) (cq : option cq_ref) (threadPool : option pool_ref)
    (cb : option callback) (w : world) : fault + machine :=
  let init :=
    {| self := {| _service := service;
                  _methodIndex := methodIndex;
                  _cq := cq;
                  _threadPool := threadPool;
                  _cb := cb;
                  _receivedCall := None |};
       env := w |} in
  execStateT
    (d <- gets self ;;
     BOOST_ASSERT assert_cq (is_some (_cq d)) ;;
     BOOST_ASSERT assert_threadPool (is_some (_threadPool d)) ;;
     BOOST_ASSERT assert_cb (is_some (_cb d)) ;;
     queue_receive this)
    init.

(** The body of the scheduled closure, as a worker of the pool runs it:
    [_cb(unary_call<TRequest, TResponse> { std::move(receivedCall) })]. *)
Definition run_task (t : task) : M unit :=
  cb <- gets (fun m => _cb (self m)) ;;
  match cb with
  | Some f => emit (EvCallback f {| impl := captured_receivedCall t |})
  | None => raise BadFunctionCall
  end.

(** A sequence of completions delivered to the object, oldest first. *)
Fixpoint invokes (this : io_manager_tag) (oks : list bool) : M unit :=
  match oks with
  | [] => ret tt
  | ok :: rest => invoke this ok ;; invokes this rest
  end.

(** ** Observations on the trace *)

Definition is_queue_receive (e : event) : bool :=
  match e with EvQueueReceive _ _ _ _ _ _ _ => true | _ => false end.

Definition is_schedule (e : event) : bool :=
  match e with EvSchedule _ _ => true | _ => false end.

Definition count (f : event -> bool) (evs : list event) : nat :=
  length (filter f evs).

(** Number of [service.queue_receive] calls, and of [schedule] calls. *)
Definition arms (w : world) : nat := count is_queue_receive (trace w).
Definition submitted (w : world) : nat := count is_schedule (trace w).

Definition is_callback (e : event) : bool :=
  match e with EvCallback _ _ => true | _ => false end.

(** The records given to scheduled closures, oldest first. *)
Definition detached (evs : list event) : list (option uc_impl) :=
  flat_map (fun e => match e with
                     | EvSchedule _ t => [captured_receivedCall t]
                     | _ => []
                     end) evs.

(** The method indices given to [service.queue_receive], oldest first. *)
Definition received_indices (evs : list event) : list Z :=
  flat_map (fun e => match e with
                     | EvQueueReceive _ i _ _ _ _ _ => [i]
                     | _ => []
                     end) evs.

(** The event by which a record [p] is armed. *)
Definition arm_event (this : io_manager_tag) (d : service_unary_call_data)
    (p : uc_impl) : event :=
  EvQueueReceive (_service d) (_methodIndex d)
    (p, context) (p, request) (p, responder) (_cq d) this.

(** The object and world left by arming from an empty slot. *)
Definition armed (this : io_manager_tag) (d : service_unary_call_data)
    (w : world) : machine :=
  let p := allocated w in
  {| self := with_receivedCall d (Some p);
     env := {| allocated := S p;
               trace := trace w ++ [EvNew p; arm_event this d p] |} |}.

(** The object and world left by [invoke(true)]. *)
Definition dispatched (this : io_manager_tag) (pool : pool_ref)
    (m : machine) : machine :=
  armed this (self m)
    {| allocated := allocated (env m);
       trace := trace (env m) ++
                [EvSchedule pool (mk_task this (_receivedCall (self m)))] |}.

(** A sample run: a service [1], method index [3], object at [7]. *)
Definition w0 : world := {| allocated := 0; trace := [] |}.

Definition sample : machine :=
  {| self := mk_data 1 3%Z (Some 5) (Some 6) (Some 9) (Some 0);
     env := {| allocated := 1;
               trace := [EvNew 0;
                         EvQueueReceive 1 3%Z (0, context) (0, request)
                           (0, responder) (Some 5) 7] |} |}.

(** [sample] after one more [invoke(true)]. *)
Definition sample_rearmed : machine :=
  {| self := mk_data 1 3%Z (Some 5) (Some 6) (Some 9) (Some 1);
     env := {| allocated := 2;
               trace := [EvNew 0;
                         EvQueueReceive 1 3%Z (0, context) (0, request)
                           (0, responder) (Some 5) 7;
                         EvSchedule 6 (mk_task 7 (Some 0));
                         EvNew 1;
                         EvQueueReceive 1 3%Z (1, context) (1, request)
                           (1, responder) (Some 5) 7] |} |}.

(** ** Whole runs *)

Definition is_delete (e : event) : bool :=
  match e with EvDelete _ => true | _ => false end.

(** The records whose members were given to [service.queue_receive],
    oldest first. *)
Definition armed_records (evs : list event) : list uc_impl :=
  flat_map (fun e => match e with
                     | EvQueueReceive _ _ ctx _ _ _ _ => [fst ctx]
                     | _ => []
                     end) evs.

(** The closures given to [schedule], oldest first. *)
Definition scheduled_tasks (evs : list event) : list task :=
  flat_map (fun e => match e with
                     | EvSchedule _ t => [t]
                     | _ => []
                     end) evs.

(** The number of successful completions in a sequence. *)
Definition successes (oks : list bool) : nat :=
  length (filter (fun ok : bool => ok) oks).

(** A worker running closures one after the other. *)
Fixpoint run_tasks (ts : list task) : M unit :=
  match ts with
  | [] => ret tt
  | t :: rest => run_task t ;; run_tasks rest
  end.

(** An event of the object [this], built for [svc], [cq] and [pool],
    names them and nothing else: an accept is for [svc] on [cq] with
    tag [this] and the three members of one record, a closure goes to
    [pool] and captures [this]. *)
Definition well_addressed (this : io_manager_tag) (svc : service_ref)
    (cq : cq_ref) (pool : pool_ref) (e : event) : Prop :=
  match e with
  | EvQueueReceive s _ ctx req resp q tag =>
      s = svc /\ q = Some cq /\ tag = this /\
      exists r, ctx = (r, context) /\ req = (r, request) /\
                resp = (r, responder)
  | EvSchedule p t => p = pool /\ captured_this t = this
  | _ => True
  end.

(** What [invoke(true)] does with the pending record [r]: the closure
    for [r], then the next record and its accept. *)
Definition round (this : io_manager_tag) (d : service_unary_call_data)
    (pool : pool_ref) (r : uc_impl) : list event :=
  [EvSchedule pool (mk_task this (Some r));
   EvNew (S r);
   arm_event this d (S r)].

(** [k] successful completions in a row, [a] being the record pending
    at the first. *)
Definition rounds (this : io_manager_tag) (d : service_unary_call_data)
    (pool : pool_ref) (a k : nat) : list event :=
  flat_map (round this d pool) (seq a k).

(** What the object has done after construction and [k] successful
    completions, [a] being the first record it created. *)
Definition history (this : io_manager_tag) (d : service_unary_call_data)
    (pool : pool_ref) (a k : nat) : list event :=
  [EvNew a; arm_event this d a] ++ rounds this d pool a k.

Definition state_after (this : io_manager_tag) (d : service_unary_call_data)
    (pool : pool_ref) (w : world) (k : nat) : machine :=
  {| self := with_receivedCall d (Some (allocated w + k));
     env := {| allocated := S (allocated w + k);
               trace := trace w ++ history this d pool (allocated w) k |} |}.

(** * Properties *)

(** ** Running the primitives *)

Example construct_sample :
  construct 7 1 3%Z (Some 5) (Some 6) (Some 9) w0 = inr sample.
Proof. reflexivity. Qed.

Lemma count_app (f : event -> bool) (l1 l2 : list event) :
  count f (l1 ++ l2) = count f l1 + count f l2.
Proof. unfold count. now rewrite filter_app, length_app. Qed.

Lemma detached_app (l1 l2 : list event) :
  detached (l1 ++ l2) = detached l1 ++ detached l2.
Proof. apply flat_map_app. Qed.

Lemma received_indices_app (l1 l2 : list event) :
  received_indices (l1 ++ l2) = received_indices l1 ++ received_indices l2.
Proof. apply flat_map_app. Qed.

Ltac explode m :=
  let d := fresh "d" in let w := fresh "w" in
  destruct m as [d w]; destruct d, w; cbn in *.

Section Runs.

Variable this : io_manager_tag.

Lemma queue_receive_empty (m : machine) :
  _receivedCall (self m) = None ->
  runStateT (queue_receive this) m = inr (tt, armed this (self m) (env m)).
Proof.
  explode m. intros ->. unfold armed, with_receivedCall, arm_event. cbn.
  now rewrite <- app_assoc.
Qed.

Lemma queue_receive_pending (m : machine) (q : uc_impl) :
  _receivedCall (self m) = Some q ->
  runStateT (queue_receive this) m =
  inl (AssertionFailed assert_not_receivedCall).
Proof. explode m. intros ->. reflexivity. Qed.

Lemma invoke_true_run (m : machine) (pool : pool_ref) :
  _threadPool (self m) = Some pool ->
  runStateT (invoke this true) m = inr (tt, dispatched this pool m).
Proof.
  explode m. intros ->.
  unfold dispatched, armed, with_receivedCall, arm_event. cbn.
  now rewrite <- !app_assoc.
Qed.

Lemma invoke_true_null_pool (m : machine) :
  _threadPool (self m) = None ->
  runStateT (invoke this true) m = inl NullDereference.
Proof. explode m. intros ->. reflexivity. Qed.

Lemma invoke_false_run (m : machine) :
  runStateT (invoke this false) m = inr (tt, m).
Proof. reflexivity. Qed.

Lemma invokes_cons (ok : bool) (rest : list bool) (m m1 : machine) :
  runStateT (invoke this ok) m = inr (tt, m1) ->
  runStateT (invokes this (ok :: rest)) m = runStateT (invokes this rest) m1.
Proof. intros H. cbn [invokes]. cbn. now rewrite H. Qed.

(** A property that every returning [invoke] preserves, and that keeps
    the thread pool non-null, holds after any sequence of calls; and
    every such sequence returns. *)
Lemma invokes_invariant (I : machine -> Prop) :
  (forall m, I m -> _threadPool (self m) <> None) ->
  (forall m ok m', I m -> runStateT (invoke this ok) m = inr (tt, m') -> I m') ->
  forall oks m, I m ->
  exists m', runStateT (invokes this oks) m = inr (tt, m') /\ I m'.
Proof.
  intros Hpool Hstep oks.
  induction oks as [|ok rest IH]; intros m Hm.
  - exists m. split; [reflexivity | exact Hm].
  - assert (exists m1, runStateT (invoke this ok) m = inr (tt, m1)) as [m1 H1].
    { destruct ok.
      + specialize (Hpool m Hm).
        destruct (_threadPool (self m)) as [pool|] eqn:E; [|congruence].
        exists (dispatched this pool m). apply invoke_true_run, E.
      + eexists. apply invoke_false_run. }
    destruct (IH m1 (Hstep _ _ _ Hm H1)) as [m' [Hrun Hm']].
    exists m'. split; [|exact Hm'].
    now rewrite (invokes_cons _ _ _ _ H1).
Qed.

End Runs.

(** What one [invoke(true)] adds to the world. *)
Lemma dispatched_trace this pool m :
  trace (env (dispatched this pool m)) =
  trace (env m) ++
  [EvSchedule pool (mk_task this (_receivedCall (self m)));
   EvNew (allocated (env m));
   arm_event this (self m) (allocated (env m))].
Proof. unfold dispatched, armed. cbn. now rewrite <- app_assoc. Qed.

Lemma dispatched_self this pool m :
  self (dispatched this pool m) =
  with_receivedCall (self m) (Some (allocated (env m))).
Proof. reflexivity. Qed.

Lemma dispatched_allocated this pool m :
  allocated (env (dispatched this pool m)) = S (allocated (env m)).
Proof. reflexivity. Qed.

Lemma dispatched_counts this pool m :
  submitted (env (dispatched this pool m)) = S (submitted (env m)) /\
  arms (env (dispatched this pool m)) = S (arms (env m)).
Proof.
  unfold submitted, arms. rewrite dispatched_trace, !count_app.
  cbn. lia.
Qed.

(** Case analysis on a returning [invoke]: the machine it leaves is
    either [dispatched] or the one it started from. *)
Ltac invoke_cases this m ok H :=
  let pool := fresh "pool" in
  let E := fresh "Epool" in
  destruct ok;
  [ destruct (_threadPool (self m)) as [pool|] eqn:E;
    [ rewrite (invoke_true_run this m pool E) in H
    | rewrite (invoke_true_null_pool this m E) in H; discriminate H ]
  | rewrite (invoke_false_run this m) in H ];
  injection H as <-.

Lemma construct_run this svc mi cq pool cb w :
  construct this svc mi (Some cq) (Some pool) (Some cb) w =
  inr (armed this (mk_data svc mi (Some cq) (Some pool) (Some cb) None) w).
Proof.
  destruct w. unfold armed, with_receivedCall, arm_event. cbn.
  now rewrite <- app_assoc.
Qed.

Lemma invokes_true_counts this pool N :
  forall m, _threadPool (self m) = Some pool ->
  exists m', runStateT (invokes this (repeat true N)) m = inr (tt, m') /\
             _threadPool (self m') = Some pool /\
             submitted (env m') = submitted (env m) + N /\
             arms (env m') = arms (env m) + N.
Proof.
  induction N as [|N IH]; intros m Hp.
  - exists m. cbn. repeat split; auto; lia.
  - destruct (IH (dispatched this pool m)) as [m' [Hrun [Hp' [Hs Ha]]]].
    { rewrite dispatched_self. exact Hp. }
    exists m'. cbn [repeat].
    rewrite (invokes_cons this true _ m _ (invoke_true_run this m pool Hp)).
    destruct (dispatched_counts this pool m) as [Es Ea].
    repeat split; auto; lia.
Qed.

(** ** The claims *)

(** C1. On a freshly constructed object, [N] calls [invoke(true)] make
    exactly [N] calls of [schedule] and, with the one of the constructor,
    exactly [N + 1] calls of [service.queue_receive]. *)
Theorem invoke_true_n_counts this svc mi cq pool cb w N :
  exists m0 m,
    construct this svc mi (Some cq) (Some pool) (Some cb) w = inr m0 /\
    runStateT (invokes this (repeat true N)) m0 = inr (tt, m) /\
    submitted (env m) = submitted w + N /\
    arms (env m) = arms w + (N + 1).
Proof.
  eexists. rewrite construct_run.
  destruct (invokes_true_counts this pool N
              (armed this (mk_data svc mi (Some cq) (Some pool) (Some cb) None) w)
              eq_refl) as [m [Hrun [_ [Hs Ha]]]].
  exists m. split; [reflexivity|]. split; [exact Hrun|].
  rewrite Hs, Ha. unfold submitted, arms, armed. cbn [env trace].
  rewrite !count_app. cbn. split; lia.
Qed.

(** C10. [invoke(false)] returns and leaves every member of the object,
    [_receivedCall] included, and the world as they were. *)
Theorem invoke_false_frame this m :
  exists m',
    runStateT (invoke this false) m = inr (tt, m') /\
    _service (self m') = _service (self m) /\
    _methodIndex (self m') = _methodIndex (self m) /\
    _cq (self m') = _cq (self m) /\
    _threadPool (self m') = _threadPool (self m) /\
    _cb (self m') = _cb (self m) /\
    _receivedCall (self m') = _receivedCall (self m) /\
    env m' = env m /\
    m' = m.
Proof. exists m. repeat split. Qed.

(** C6. [queue_receive] fails its assertion when a record is pending.
    From an empty slot it returns, the slot then holds the record it has
    just created with [new], and the one thing it has done beside is one
    [service.queue_receive] for [_methodIndex], on the members of that
    record, with [_cq] and [this]. *)
Theorem queue_receive_contract this m :
  match _receivedCall (self m) with
  | Some _ =>
      runStateT (queue_receive this) m =
      inl (AssertionFailed assert_not_receivedCall)
  | None =>
      exists m' p,
        runStateT (queue_receive this) m = inr (tt, m') /\
        p = allocated (env m) /\
        allocated (env m') = S p /\
        self m' = with_receivedCall (self m) (Some p) /\
        trace (env m') =
          trace (env m) ++
          [EvNew p;
           EvQueueReceive (_service (self m)) (_methodIndex (self m))
             (p, context) (p, request) (p, responder) (_cq (self m)) this] /\
        arms (env m') = S (arms (env m))
  end.
Proof.
  destruct (_receivedCall (self m)) as [q|] eqn:E.
  - exact (queue_receive_pending this m q E).
  - exists (armed this (self m) (env m)), (allocated (env m)).
    split; [now apply queue_receive_empty|].
    repeat split. unfold arms, armed. cbn [env trace].
    rewrite count_app. cbn. lia.
Qed.

(** C5. With its three collaborators present the constructor returns,
    having called [service.queue_receive] exactly once; the object it
    leaves holds one pending record and accepts [invoke] as it is. *)
Theorem construct_arms_once this svc mi cq pool cb w :
  exists m p,
    construct this svc mi (Some cq) (Some pool) (Some cb) w = inr m /\
    p = allocated w /\
    self m = mk_data svc mi (Some cq) (Some pool) (Some cb) (Some p) /\
    trace (env m) =
      trace w ++
      [EvNew p;
       EvQueueReceive svc mi (p, context) (p, request) (p, responder)
         (Some cq) this] /\
    arms (env m) = arms w + 1 /\
    exists m', runStateT (invoke this true) m = inr (tt, m').
Proof.
  eexists. exists (allocated w). rewrite construct_run.
  split; [reflexivity|]. repeat split.
  - unfold arms, armed. cbn [env trace]. rewrite count_app. cbn. lia.
  - eexists. apply (invoke_true_run this _ pool). reflexivity.
Qed.

(** The constructor checks [_cq], [_threadPool] and [_cb] in this order,
    and stops at the first that is null or empty. *)
Lemma construct_cases this svc mi cq tp cb w :
  construct this svc mi cq tp cb w =
  match cq, tp, cb with
  | None, _, _ => inl (AssertionFailed assert_cq)
  | Some _, None, _ => inl (AssertionFailed assert_threadPool)
  | Some _, Some _, None => inl (AssertionFailed assert_cb)
  | Some _, Some _, Some _ =>
      inr (armed this (mk_data svc mi cq tp cb None) w)
  end.
Proof.
  destruct cq as [c|]; [|reflexivity].
  destruct tp as [p|]; [|reflexivity].
  destruct cb as [f|]; [|reflexivity].
  apply construct_run.
Qed.

(** C4. A null completion queue, a null thread pool or an empty callback
    makes the constructor fail an assertion; with the three of them
    present it returns, no assertion failing. *)
Theorem construct_asserts_collaborators this svc mi cq tp cb w :
  (cq = None \/ tp = None \/ cb = None ->
   exists a, construct this svc mi cq tp cb w = inl (AssertionFailed a)) /\
  (cq <> None /\ tp <> None /\ cb <> None ->
   exists m, construct this svc mi cq tp cb w = inr m).
Proof.
  rewrite construct_cases. split.
  - intros H. destruct cq, tp, cb; eauto;
      destruct H as [H|[H|H]]; discriminate H.
  - intros [Hq [Hp Hc]]. destruct cq, tp, cb; eauto; congruence.
Qed.

Lemma construct_asserts_collaborators_witness :
  (exists a, construct 7 1 3%Z (Some 5) None (Some 9) w0 =
             inl (AssertionFailed a)) /\
  (exists m, construct 7 1 3%Z (Some 5) (Some 6) (Some 9) w0 = inr m).
Proof.
  split.
  - apply (proj1 (construct_asserts_collaborators
                    7 1 3%Z (Some 5) None (Some 9) w0)).
    right; left; reflexivity.
  - apply (proj2 (construct_asserts_collaborators
                    7 1 3%Z (Some 5) (Some 6) (Some 9) w0)).
    repeat split; discriminate.
Defined.

(** C7. [invoke(true)] is, in this order: [release], which empties the
    slot and yields the pending record; one [schedule] of a closure
    holding that record, which makes [_cb] receive a [unary_call] built
    from it when a worker runs it; and [queue_receive], which creates a
    new record and calls [service.queue_receive] for the same method
    index and the same [this].  When [invoke] returns the new accept is
    registered and no callback has run. *)
Theorem invoke_true_detach_dispatch_rearm this svc mi cq pool cb r w :
  let d := mk_data svc mi cq (Some pool) (Some cb) in
  let t := mk_task this (Some r) in
  let p := allocated w in
  let arm := EvQueueReceive svc mi (p, context) (p, request) (p, responder)
               cq this in
  let m  := mk_machine (d (Some r)) w in
  let m1 := mk_machine (d None) w in
  let m2 := mk_machine (d None)
              (mk_world p (trace w ++ [EvSchedule pool t])) in
  let m3 := mk_machine (d (Some p))
              (mk_world (S p) (trace w ++ [EvSchedule pool t; EvNew p; arm])) in
  let m4 := mk_machine (d (Some p))
              (mk_world (S p)
                 (trace w ++ [EvSchedule pool t; EvNew p; arm;
                              EvCallback cb (mk_unary_call (Some r))])) in
  runStateT release m = inr (Some r, m1) /\
  runStateT (schedule t) m1 = inr (tt, m2) /\
  runStateT (queue_receive this) m2 = inr (tt, m3) /\
  runStateT (invoke this true) m = inr (tt, m3) /\
  count is_callback (trace (env m3)) = count is_callback (trace w) /\
  runStateT (run_task t) m3 = inr (tt, m4).
Proof.
  destruct w as [n tr]. cbn zeta. cbn [allocated trace env].
  split; [reflexivity|]. split; [reflexivity|].
  split; [cbn; now rewrite <- !app_assoc|].
  split; [cbn; now rewrite <- !app_assoc|].
  split; [rewrite count_app; cbn; lia|].
  cbn. now rewrite <- !app_assoc.
Qed.

(** C2, as stated, fails: the object keeps no mark of [invoke(false)],
    so that an [invoke(true)] after it schedules the record still held
    and calls [service.queue_receive] again. *)
Lemma shutdown_not_absorbing :
  construct 7 1 3%Z (Some 5) (Some 6) (Some 9) w0 = inr sample /\
  runStateT (invoke 7 false) sample = inr (tt, sample) /\
  runStateT (invoke 7 true) sample = inr (tt, sample_rearmed) /\
  arms (env sample) = 1 /\ arms (env sample_rearmed) = 2 /\
  submitted (env sample) = 0 /\ submitted (env sample_rearmed) = 1.
Proof. repeat split. Qed.

Lemma invokes_false_run this n m :
  runStateT (invokes this (repeat false n)) m = inr (tt, m).
Proof. induction n as [|n IH]; [reflexivity|]. cbn [repeat invokes]. exact IH. Qed.

(** C2, amended. [invoke(false)] calls neither [service.queue_receive]
    nor [schedule], and neither does any number of [invoke(false)] after
    it: they return and leave the object and the world as they were. *)
Theorem invoke_false_only_inert this n m :
  exists m',
    runStateT (invokes this (false :: repeat false n)) m = inr (tt, m') /\
    trace (env m') = trace (env m) /\
    arms (env m') = arms (env m) /\
    submitted (env m') = submitted (env m) /\
    m' = m.
Proof.
  exists m. split; [|repeat split].
  exact (invokes_false_run this (S n) m).
Qed.

(** C3, as stated, fails: after [invoke(false)] the slot still holds the
    record that was armed. *)
Lemma slot_kept_after_shutdown :
  construct 7 1 3%Z (Some 5) (Some 6) (Some 9) w0 = inr sample /\
  runStateT (invoke 7 false) sample = inr (tt, sample) /\
  _receivedCall (self sample) = Some 0 /\
  _receivedCall (self sample) <> None.
Proof. repeat split. discriminate. Qed.

(** The members a returning [invoke] leaves alone. *)
Lemma invoke_frame this ok m m' :
  runStateT (invoke this ok) m = inr (tt, m') ->
  _service (self m') = _service (self m) /\
  _methodIndex (self m') = _methodIndex (self m) /\
  _cq (self m') = _cq (self m) /\
  _threadPool (self m') = _threadPool (self m) /\
  _cb (self m') = _cb (self m).
Proof.
  intros H. invoke_cases this m ok H; repeat split.
  rewrite dispatched_self. cbn. congruence.
Qed.

(** C3, amended. Between calls of [invoke], whatever their arguments,
    the slot of a constructed object holds one record.  It is empty
    only inside [invoke(true)], from [release] to [queue_receive], and
    [invoke(false)] leaves in it the record it held. *)
Theorem slot_holds_one_record this svc mi cq pool cb w oks :
  exists m0 m r,
    construct this svc mi (Some cq) (Some pool) (Some cb) w = inr m0 /\
    runStateT (invokes this oks) m0 = inr (tt, m) /\
    _receivedCall (self m) = Some r /\
    (exists m1, runStateT release m = inr (Some r, m1) /\
                _receivedCall (self m1) = None) /\
    (exists m2, runStateT (invoke this false) m = inr (tt, m2) /\
                _receivedCall (self m2) = Some r).
Proof.
  eexists. rewrite construct_run.
  set (m0 := armed _ _ _).
  destruct (invokes_invariant this
              (fun m => _threadPool (self m) <> None /\
                        _receivedCall (self m) <> None)) with (oks := oks) (m := m0)
    as [m [Hrun [Hp Hr]]].
  - now intros m [H _].
  - intros m ok m' [Hp Hr] H. invoke_cases this m ok H.
    + rewrite dispatched_self. cbn. split; congruence.
    + now split.
  - split; discriminate.
  - destruct (_receivedCall (self m)) as [r|] eqn:E; [|congruence].
    exists m, r. split; [reflexivity|]. split; [exact Hrun|].
    split; [exact E|]. split.
    + exists (mk_machine (with_receivedCall (self m) None) (env m)).
      split; [|reflexivity]. explode m. now subst.
    + exists m. now split.
Qed.

(** C8. From construction on, through any sequence of [invoke], the
    member [_methodIndex] keeps the value given to the constructor and
    every [service.queue_receive] the object has called has that value
    as its method index. *)
Theorem methodIndex_passed_unchanged this svc mi cq pool cb w oks :
  exists m0 m evs,
    construct this svc mi (Some cq) (Some pool) (Some cb) w = inr m0 /\
    runStateT (invokes this oks) m0 = inr (tt, m) /\
    _methodIndex (self m0) = mi /\
    _methodIndex (self m) = mi /\
    trace (env m) = trace w ++ evs /\
    received_indices evs <> [] /\
    Forall (fun i => i = mi) (received_indices evs).
Proof.
  eexists. rewrite construct_run.
  set (m0 := armed _ _ _).
  destruct (invokes_invariant this
              (fun m => _threadPool (self m) <> None /\
                        _methodIndex (self m) = mi /\
                        exists evs, trace (env m) = trace w ++ evs /\
                                    received_indices evs <> [] /\
                                    Forall (fun i => i = mi)
                                      (received_indices evs)))
    with (oks := oks) (m := m0) as [m [Hrun [_ [Hi [evs [Ht [Hne Hall]]]]]]].
  - now intros m [H _].
  - intros m ok m' [Hp [Hi [evs [Ht [Hne Hall]]]]] H.
    invoke_cases this m ok H.
    + split; [rewrite dispatched_self; cbn; congruence|]. split; [exact Hi|].
      eexists. rewrite dispatched_trace, Ht, <- app_assoc.
      split; [reflexivity|]. rewrite received_indices_app. split.
      * intros Habs. apply app_eq_nil in Habs. now destruct Habs.
      * apply Forall_app. split; [exact Hall|].
        cbn. now repeat constructor.
    + split; [exact Hp|]. split; [exact Hi|]. now exists evs.
  - split; [discriminate|]. split; [reflexivity|].
    eexists. split; [reflexivity|]. cbn. split; [discriminate|].
    now repeat constructor.
  - exists m, evs. split; [reflexivity|]. now repeat split.
Qed.

(** C9. From construction on, through any sequence of [invoke], the
    record in the slot is none of the records the object has given to a
    scheduled closure: each of those was created before it. *)
Theorem pending_record_not_aliased this svc mi cq pool cb w oks :
  exists m0 m evs r,
    construct this svc mi (Some cq) (Some pool) (Some cb) w = inr m0 /\
    runStateT (invokes this oks) m0 = inr (tt, m) /\
    trace (env m) = trace w ++ evs /\
    _receivedCall (self m) = Some r /\
    Forall (fun d => exists x, d = Some x /\ x < r) (detached evs) /\
    ~ In (Some r) (detached evs).
Proof.
  eexists. rewrite construct_run.
  set (m0 := armed _ _ _).
  destruct (invokes_invariant this
              (fun m => _threadPool (self m) <> None /\
                        exists evs r,
                          trace (env m) = trace w ++ evs /\
                          _receivedCall (self m) = Some r /\
                          allocated (env m) = S r /\
                          Forall (fun d => exists x, d = Some x /\ x < r)
                            (detached evs)))
    with (oks := oks) (m := m0) as [m [Hrun [_ [evs [r [Ht [Hr [Ha Hall]]]]]]]].
  - now intros m [H _].
  - intros m ok m' [Hp [evs [r [Ht [Hr [Ha Hall]]]]]] H.
    invoke_cases this m ok H.
    + split; [rewrite dispatched_self; cbn; congruence|].
      eexists. exists (S r). rewrite dispatched_trace, Ht, <- app_assoc.
      split; [reflexivity|]. rewrite dispatched_self, dispatched_allocated, Ha, Hr.
      split; [reflexivity|]. split; [reflexivity|].
      rewrite detached_app. apply Forall_app. split.
      * eapply Forall_impl; [|exact Hall].
        intros d [x [-> Hx]]. exists x. split; [reflexivity|]. lia.
      * cbn. constructor; [|constructor]. exists r. split; [reflexivity|]. lia.
    + split; [exact Hp|]. now exists evs, r.
  - split; [discriminate|].
    eexists. exists (allocated w). split; [reflexivity|].
    split; [reflexivity|]. split; [reflexivity|]. constructor.
  - exists m, evs, r. split; [reflexivity|]. split; [exact Hrun|].
    split; [exact Ht|]. split; [exact Hr|]. split; [exact Hall|].
    intros Hin. rewrite Forall_forall in Hall.
    destruct (Hall _ Hin) as [x [Hx Hlt]]. injection Hx as <-. lia.
Qed.

(** ** Whole runs of the object *)

Lemma armed_records_app (l1 l2 : list event) :
  armed_records (l1 ++ l2) = armed_records l1 ++ armed_records l2.
Proof. apply flat_map_app. Qed.

Lemma scheduled_tasks_app (l1 l2 : list event) :
  scheduled_tasks (l1 ++ l2) = scheduled_tasks l1 ++ scheduled_tasks l2.
Proof. apply flat_map_app. Qed.

Section Rounds.

Variable this : io_manager_tag.
Variable d : service_unary_call_data.
Variable pool : pool_ref.

Lemma rounds_S (a k : nat) :
  rounds this d pool a (S k) = round this d pool a ++ rounds this d pool (S a) k.
Proof. reflexivity. Qed.

Lemma rounds_counts (k : nat) : forall a,
  count is_schedule (rounds this d pool a k) = k /\
  count is_queue_receive (rounds this d pool a k) = k /\
  count is_delete (rounds this d pool a k) = 0 /\
  count is_callback (rounds this d pool a k) = 0.
Proof.
  induction k as [|k IH]; intros a; [now repeat split|].
  destruct (IH (S a)) as [H1 [H2 [H3 H4]]].
  rewrite rounds_S, !count_app, H1, H2, H3, H4. now repeat split.
Qed.

Lemma rounds_detached (k : nat) : forall a,
  detached (rounds this d pool a k) = map Some (seq a k).
Proof.
  induction k as [|k IH]; intros a; [reflexivity|].
  rewrite rounds_S, detached_app, IH. reflexivity.
Qed.

Lemma rounds_armed_records (k : nat) : forall a,
  armed_records (rounds this d pool a k) = seq (S a) k.
Proof.
  induction k as [|k IH]; intros a; [reflexivity|].
  rewrite rounds_S, armed_records_app, IH. reflexivity.
Qed.

Lemma rounds_scheduled_tasks (k : nat) : forall a,
  scheduled_tasks (rounds this d pool a k) = map (fun r => mk_task this (Some r)) (seq a k).
Proof.
  induction k as [|k IH]; intros a; [reflexivity|].
  rewrite rounds_S, scheduled_tasks_app, IH. reflexivity.
Qed.

Lemma rounds_received_indices (k : nat) : forall a,
  received_indices (rounds this d pool a k) = repeat (_methodIndex d) k.
Proof.
  induction k as [|k IH]; intros a; [reflexivity|].
  rewrite rounds_S, received_indices_app, IH. reflexivity.
Qed.

Lemma rounds_well_addressed (cq : cq_ref) (k : nat) :
  _cq d = Some cq ->
  forall a, Forall (well_addressed this (_service d) cq pool) (rounds this d pool a k).
Proof.
  intros Hcq. induction k as [|k IH]; intros a; [constructor|].
  rewrite rounds_S. apply Forall_app. split; [|apply IH].
  repeat constructor; cbn; eauto.
Qed.

(** One more successful completion. *)
Lemma dispatched_state_after (w : world) (k : nat) :
  dispatched this pool (state_after this d pool w k) =
  state_after this d pool w (S k).
Proof.
  unfold dispatched, armed, state_after, history, rounds.
  cbn [self env allocated trace].
  rewrite seq_S, flat_map_app, Nat.add_succ_r. cbn [flat_map round].
  rewrite app_nil_r, <- !app_assoc. reflexivity.
Qed.

Hypothesis pool_held : _threadPool d = Some pool.

Lemma invokes_state_after (w : world) (oks : list bool) : forall k,
  runStateT (invokes this oks) (state_after this d pool w k) =
  inr (tt, state_after this d pool w (k + successes oks)).
Proof.
  induction oks as [|ok rest IH]; intros k.
  - cbn. now rewrite Nat.add_0_r.
  - destruct ok.
    + rewrite (invokes_cons this true rest _ _
                 (invoke_true_run this (state_after this d pool w k) pool
                    pool_held)).
      rewrite dispatched_state_after, IH. cbn [successes filter length].
      now rewrite Nat.add_succ_r.
    + rewrite (invokes_cons this false rest _ _ (invoke_false_run this _)).
      apply IH.
Qed.

End Rounds.

Lemma state_after_0 this d pool w :
  state_after this d pool w 0 = armed this d w.
Proof.
  unfold state_after, armed, history, rounds. cbn [seq flat_map].
  now rewrite Nat.add_0_r, app_nil_r.
Qed.

(** Construction and any sequence of completions, in closed form. *)
Lemma construct_then_invokes this svc mi cq pool cb w oks :
  let d := mk_data svc mi (Some cq) (Some pool) (Some cb) None in
  construct this svc mi (Some cq) (Some pool) (Some cb) w =
    inr (state_after this d pool w 0) /\
  runStateT (invokes this oks) (state_after this d pool w 0) =
    inr (tt, state_after this d pool w (successes oks)).
Proof.
  intros d. split.
  - rewrite construct_run, state_after_0. reflexivity.
  - exact (invokes_state_after this d pool eq_refl w oks 0).
Qed.

Ltac closed_form this svc mi cq pool cb w oks :=
  destruct (construct_then_invokes this svc mi cq pool cb w oks) as [Hc Hr];
  cbn zeta in Hc, Hr;
  eexists; eexists; eexists;
  split; [exact Hc|]; split; [exact Hr|];
  split; [reflexivity|].

Lemma run_bind {A B : Type} (c : M A) (k : A -> M B) (m : machine) :
  runStateT (bind c k) m =
  match runStateT c m with
  | inl e => inl e
  | inr (v, s) => runStateT (k v) s
  end.
Proof. cbn. destruct (runStateT c m) as [e|[v s]]; reflexivity. Qed.

Lemma run_tasks_run (f : callback) (ts : list task) : forall m,
  _cb (self m) = Some f ->
  runStateT (run_tasks ts) m =
  inr (tt, {| self := self m;
              env := {| allocated := allocated (env m);
                        trace := trace (env m) ++
                                 map (fun t => EvCallback f
                                        (mk_unary_call (captured_receivedCall t)))
                                     ts |} |}).
Proof.
  induction ts as [|t rest IH]; intros m Hf.
  - explode m. now rewrite app_nil_r.
  - cbn [run_tasks map].
    assert (runStateT (run_task t) m =
            inr (tt, {| self := self m;
                        env := {| allocated := allocated (env m);
                                  trace := trace (env m) ++
                                    [EvCallback f
                                       (mk_unary_call (captured_receivedCall t))]
                               |} |})) as H1.
    { explode m. subst. reflexivity. }
    rewrite run_bind, H1, IH by exact Hf.
    cbn [self env allocated trace]. now rewrite <- app_assoc.
Qed.

Lemma NoDup_map_Some (l : list uc_impl) :
  NoDup l -> NoDup (map Some l).
Proof.
  induction 1 as [|x l Hx Hl IH]; cbn; constructor; [|exact IH].
  rewrite in_map_iff. intros [y [Hy Hin]]. injection Hy as ->. exact (Hx Hin).
Qed.

(** ** Further properties *)

(** X1. Whatever the sequence of completions delivered to a constructed
    object, failed ones interleaved or not, it has scheduled one closure
    per successful completion, registered one accept more than that, and
    created as many records as it registered accepts. *)
Theorem invokes_counts this svc mi cq pool cb w oks :
  exists m0 m,
    construct this svc mi (Some cq) (Some pool) (Some cb) w = inr m0 /\
    runStateT (invokes this oks) m0 = inr (tt, m) /\
    submitted (env m) = submitted w + successes oks /\
    arms (env m) = arms w + S (successes oks) /\
    allocated (env m) = allocated w + S (successes oks).
Proof.
  destruct (construct_then_invokes this svc mi cq pool cb w oks) as [Hc Hr].
  cbn zeta in Hc, Hr.
  eexists; eexists. split; [exact Hc|]. split; [exact Hr|].
  unfold submitted, arms, state_after, history. cbn [env trace allocated].
  rewrite !count_app.
  destruct (rounds_counts this (mk_data svc mi (Some cq) (Some pool) (Some cb) None)
              pool (successes oks) (allocated w)) as [H1 [H2 _]].
  rewrite H1, H2. cbn. repeat split; lia.
Qed.


(** X3. Records are given to closures in the order in which they were
    armed, each one once: after [k] successful completions the armed
    records are the [k + 1] consecutive records created since
    construction, the first [k] of them have been given to closures, in
    that order, and the last is the one in the slot. *)
Theorem dispatched_in_arming_order this svc mi cq pool cb w oks :
  exists m0 m evs,
    construct this svc mi (Some cq) (Some pool) (Some cb) w = inr m0 /\
    runStateT (invokes this oks) m0 = inr (tt, m) /\
    trace (env m) = trace w ++ evs /\
    armed_records evs = seq (allocated w) (S (successes oks)) /\
    detached evs = map Some (seq (allocated w) (successes oks)) /\
    _receivedCall (self m) = Some (allocated w + successes oks) /\
    map Some (armed_records evs) = detached evs ++ [_receivedCall (self m)].
Proof.
  closed_form this svc mi cq pool cb w oks.
  unfold history. rewrite armed_records_app, detached_app.
  rewrite rounds_armed_records, rounds_detached. cbn [armed_records detached
    flat_map arm_event fst app state_after self with_receivedCall _receivedCall].
  repeat split.
  change (allocated w :: seq (S (allocated w)) (successes oks))
    with (seq (allocated w) (S (successes oks))).
  now rewrite seq_S, map_app.
Qed.

(** X4. No record is given to two closures, no record is armed twice,
    and every record given to a closure had been armed. *)
Theorem no_record_dispatched_twice this svc mi cq pool cb w oks :
  exists m0 m evs,
    construct this svc mi (Some cq) (Some pool) (Some cb) w = inr m0 /\
    runStateT (invokes this oks) m0 = inr (tt, m) /\
    trace (env m) = trace w ++ evs /\
    NoDup (detached evs) /\
    NoDup (armed_records evs) /\
    incl (detached evs) (map Some (armed_records evs)).
Proof.
  closed_form this svc mi cq pool cb w oks.
  unfold history. rewrite armed_records_app, detached_app.
  rewrite rounds_armed_records, rounds_detached.
  cbn [armed_records detached flat_map arm_event fst app].
  change (allocated w :: seq (S (allocated w)) (successes oks))
    with (seq (allocated w) (S (successes oks))).
  split; [|split].
  - apply NoDup_map_Some, seq_NoDup.
  - apply seq_NoDup.
  - rewrite seq_S, map_app. apply incl_appl, incl_refl.
Qed.

(** X5. The service, completion queue, thread pool and callback given
    to the constructor stay in the object, and every accept and every
    closure names them: each accept is registered with that service, on
    that queue, with [this] as tag and the three members of one record;
    each closure is given to that pool and captures [this]. *)
Theorem collaborators_passed_unchanged this svc mi cq pool cb w oks :
  exists m0 m evs,
    construct this svc mi (Some cq) (Some pool) (Some cb) w = inr m0 /\
    runStateT (invokes this oks) m0 = inr (tt, m) /\
    trace (env m) = trace w ++ evs /\
    _service (self m) = svc /\
    _cq (self m) = Some cq /\
    _threadPool (self m) = Some pool /\
    _cb (self m) = Some cb /\
    Forall (well_addressed this svc cq pool) evs.
Proof.
  closed_form this svc mi cq pool cb w oks.
  repeat (split; [reflexivity|]).
  unfold history. apply Forall_app. split.
  - repeat constructor; cbn; eauto.
  - exact (rounds_well_addressed this
             (mk_data svc mi (Some cq) (Some pool) (Some cb) None) pool cq
             (successes oks) eq_refl (allocated w)).
Qed.

(** X6. Two [queue_receive] in a row fail the assertion, whatever the
    object: the first one fails when a record is pending, and leaves one
    pending for the second when it does not. *)
Theorem queue_receive_twice_fails this m :
  runStateT (queue_receive this ;; queue_receive this) m =
  inl (AssertionFailed assert_not_receivedCall).
Proof. explode m. destruct _receivedCall0; reflexivity. Qed.

(** X7. A failed completion is transparent: a sequence of completions
    does to any object, and to the world, what its successful ones alone
    do, faults included. *)
Theorem invoke_false_transparent this oks m :
  runStateT (invokes this oks) m =
  runStateT (invokes this (filter (fun ok : bool => ok) oks)) m.
Proof.
  revert m. induction oks as [|ok rest IH]; intros m; [reflexivity|].
  destruct ok.
  - cbn [filter invokes]. rewrite !run_bind.
    destruct (runStateT (invoke this true) m) as [e|[u m1]]; [reflexivity|].
    apply IH.
  - cbn [filter]. rewrite (invokes_cons this false rest m m eq_refl). apply IH.
Qed.

(** X8. Running a closure and handling a completion do not interfere:
    in either order both return, the object and the heap end the same,
    the object's own calls are the same in the same order, and the
    callback is called once, with the closure's record. *)
Theorem run_task_commutes_with_invoke this svc mi cq pool cb rc w t ok :
  let m := mk_machine (mk_data svc mi cq (Some pool) (Some cb) rc) w in
  let own := fun e => negb (is_callback e) in
  exists m1 m2,
    runStateT (run_task t ;; invoke this ok) m = inr (tt, m1) /\
    runStateT (invoke this ok ;; run_task t) m = inr (tt, m2) /\
    self m1 = self m2 /\
    allocated (env m1) = allocated (env m2) /\
    filter own (trace (env m1)) = filter own (trace (env m2)) /\
    filter is_callback (trace (env m1)) =
      filter is_callback (trace (env m)) ++
      [EvCallback cb (mk_unary_call (captured_receivedCall t))] /\
    filter is_callback (trace (env m2)) = filter is_callback (trace (env m1)).
Proof.
  destruct w as [n tr]. destruct ok; cbn; eexists; eexists;
    (split; [reflexivity|]); (split; [reflexivity|]);
    cbn; rewrite ?filter_app; cbn; rewrite ?app_nil_r; now repeat split.
Qed.

(** X9. Every successful completion reaches the callback once: when the
    closures scheduled through construction and any sequence of
    completions are run, the callback given to the constructor is called
    once per successful completion, with the records in the order they
    were armed, and the object is left as it was. *)
Theorem every_dispatch_reaches_callback this svc mi cq pool cb w oks :
  exists m0 m evs,
    construct this svc mi (Some cq) (Some pool) (Some cb) w = inr m0 /\
    runStateT (invokes this oks) m0 = inr (tt, m) /\
    trace (env m) = trace w ++ evs /\
    length (scheduled_tasks evs) = successes oks /\
    exists m',
      runStateT (run_tasks (scheduled_tasks evs)) m = inr (tt, m') /\
      self m' = self m /\
      allocated (env m') = allocated (env m) /\
      trace (env m') =
        trace (env m) ++
        map (fun r => EvCallback cb (mk_unary_call (Some r)))
            (seq (allocated w) (successes oks)).
Proof.
  closed_form this svc mi cq pool cb w oks.
  unfold history. rewrite scheduled_tasks_app, rounds_scheduled_tasks.
  cbn [scheduled_tasks flat_map arm_event app].
  split; [now rewrite length_map, length_seq|].
  eexists. split; [apply (run_tasks_run cb); reflexivity|].
  cbn [self env allocated trace]. repeat split.
  now rewrite map_map.
Qed.

(** X10. The accepts registered through construction and any sequence
    of completions are, one per record armed, all for the method index
    given to the constructor. *)
Theorem every_accept_for_the_method this svc mi cq pool cb w oks :
  exists m0 m evs,
    construct this svc mi (Some cq) (Some pool) (Some cb) w = inr m0 /\
    runStateT (invokes this oks) m0 = inr (tt, m) /\
    trace (env m) = trace w ++ evs /\
    received_indices evs = repeat mi (S (successes oks)) /\
    length (received_indices evs) = length (armed_records evs).
Proof.
  closed_form this svc mi cq pool cb w oks.
  unfold history.
  rewrite received_indices_app, armed_records_app,
    rounds_received_indices, rounds_armed_records.
  cbn [received_indices armed_records flat_map arm_event app _methodIndex fst].
  split; [reflexivity|].
  cbn [length]. now rewrite repeat_length, length_seq.
Qed.
